(** * The to-do list component (App, ListItem, onSubmit)

    A shallow embedding of the single React component of the repository:
    the [ListItem] presentation function, the [App] function with its
    [useState] and [useRef] hooks, the [onSubmit] handler and the JSX tree
    that [App] returns.

    JavaScript arrays are objects with identity, so they live in a heap and
    the state hook holds a reference; errors that JavaScript would raise are
    explicit in a small error monad; the calls of [setList] are recorded in
    the hook's update queue and run when the component renders again. *)

From stdpp Require Import base option list strings.

Set Warnings "-register-all".

Local Open Scope string_scope.
Local Open Scope list_scope.

(** ** JavaScript values and errors *)

Module JS.

Inductive Error := TypeError.

Inductive Result (A : Type) :=
| Ok (a : A)
| Throw (e : Error).
Arguments Ok {A} a.
Arguments Throw {A} e.

Definition bind {A B} (m : Result A) (k : A → Result B) : Result B :=
  match m with
  | Ok a => k a
  | Throw e => Throw e
  end.

(** Arrays are heap objects; a reference is the index of its cell.  The
    allocator never reuses a cell. *)
Definition ref := nat.
Definition Heap := list (list string).

Definition alloc (h : Heap) (a : list string) : Heap * ref :=
  (h ++ [a], length h).

(** [[...p, x]]: iterate the array at [p] and build a new array with [x]
    behind its items.  Spreading something that is not an array is a
    TypeError. *)
Definition spread_append (h : Heap) (p : ref) (x : string)
  : Result (Heap * ref) :=
  match h !! p with
  | Some items => Ok (alloc h (items ++ [x]))
  | None => Throw TypeError
  end.

(** [a ?? b] *)
Definition nullish (a : option string) (b : string) : string :=
  match a with
  | Some s => s
  | None => b
  end.

(** Truthiness of an object reference that may be null. *)
Definition truthy {A} (o : option A) : bool :=
  match o with
  | Some _ => true
  | None => false
  end.

End JS.

Notation "'try' x <- m 'in' k" := (JS.bind m (fun x => k))
  (at level 10, x name, m at level 100, k at level 200).

(** ** The text-entry control and the ref object *)

Module DOM.

(** The part of an [<input>] element the component touches.  The type
    says [value] is a string; the handler nevertheless guards against an
    absent one, so the model lets it be absent. *)
Record HTMLInputElement := {
  value : option string;
  placeholder : string
}.

(** [o?.value] *)
Definition opt_value (o : option HTMLInputElement) : option string :=
  match o with
  | Some el => value el
  | None => None
  end.

End DOM.

Record RefObject := { current : option DOM.HTMLInputElement }.

(** ** React elements *)

Inductive RefName := inputRef_handle.
Inductive Handler := call_onSubmit.

Inductive Attr :=
| ref_attr (r : RefName)
| placeholder_attr (s : string)
| onClick_attr (h : Handler).

Record ListItemProps := { value : string }.

Inductive Element :=
| Text (s : string)
| Host (tag : string) (attrs : list Attr) (children : list Element)
| Fragment (children : list Element)
| ListItemElement (key : nat) (props : ListItemProps).

(** [export function ListItem(props)] *)
Definition ListItem (props : ListItemProps) : Element :=
  Host "li" [] [Text (value props)].

(** ** The component instance *)

(** The one function the program passes to [setList]; it is kept in the
    queue as a closure and run by [useState] at the next render. *)
Inductive Update := append_input_value.

Record Instance := {
  heap : JS.Heap;
  listState : JS.ref;        (* the [list] of [useState] *)
  queue : list Update;       (* pending [setList] calls *)
  inputRef : RefObject       (* the object of [useRef] *)
}.

(** The array [list] refers to. *)
Definition entries (c : Instance) : option (list string) :=
  heap c !! listState c.

(** [useState<string[]>([])] and [useRef<HTMLInputElement>(null)] at the
    first call of [App]. *)
Definition init : Instance :=
  let '(h, p) := JS.alloc [] [] in
  {| heap := h; listState := p; queue := [];
     inputRef := {| current := None |} |}.

(** [(prevState) => [...prevState, inputRef.current?.value ?? '']]; the
    ref object is read when the closure runs. *)
Definition updater (r : RefObject) (h : JS.Heap) (prevState : JS.ref)
  : JS.Result (JS.Heap * JS.ref) :=
  JS.spread_append h prevState
    (JS.nullish (DOM.opt_value (current r)) "").

Definition run_update (u : Update) (r : RefObject) (h : JS.Heap)
    (prevState : JS.ref) : JS.Result (JS.Heap * JS.ref) :=
  match u with
  | append_input_value => updater r h prevState
  end.

(** [setList(fn)] puts the function at the end of the queue. *)
Definition setList (u : Update) (c : Instance) : Instance :=
  {| heap := heap c; listState := listState c;
     queue := queue c ++ [u]; inputRef := inputRef c |}.

(** [const onSubmit = () => { if (inputRef.current) { setList(...) } }] *)
Definition onSubmit (c : Instance) : Instance :=
  if JS.truthy (current (inputRef c))
  then setList append_input_value c
  else c.

(** The state hook at a render: the queued functions run in order, each on
    the state the one before left. *)
Fixpoint process_queue (q : list Update) (r : RefObject) (h : JS.Heap)
    (s : JS.ref) : JS.Result (JS.Heap * JS.ref) :=
  match q with
  | [] => JS.Ok (h, s)
  | u :: q' =>
      try hs <- run_update u r h s in
      process_queue q' r hs.1 hs.2
  end.

Definition useState (c : Instance) : JS.Result (JS.ref * Instance) :=
  try hs <- process_queue (queue c) (inputRef c) (heap c) (listState c) in
  JS.Ok (hs.2, {| heap := hs.1; listState := hs.2; queue := [];
                  inputRef := inputRef c |}).

(** [list.map((value, index) => <ListItem key={index} value={value}/>)] *)
Definition list_items (l : list string) : list Element :=
  imap (fun index value => ListItemElement index {| value := value |}) l.

Definition input_placeholder : string := "Enter a new item".

(** The fragment [App] returns. *)
Definition view (l : list string) : Element :=
  Fragment
    [ Host "h1" [] [Text "To-Do List"];
      Host "ul" [] (list_items l);
      Host "input" [ref_attr inputRef_handle;
                    placeholder_attr input_placeholder] [];
      Host "button" [onClick_attr call_onSubmit] [Text "Submit"] ].

(** [export default function App()] *)
Definition App (c : Instance) : JS.Result (Element * Instance) :=
  try sc <- useState c in
  match heap sc.2 !! sc.1 with
  | Some l => JS.Ok (view l, sc.2)
  | None => JS.Throw JS.TypeError      (* [list.map] of a non-array *)
  end.

(** ** The host: rendering, mounting and events *)

(** The renderer calls [ListItem] on every element of that type; what is
    left is the tree of host elements. *)
Fixpoint resolve (e : Element) : Element :=
  match e with
  | Text s => Text s
  | Host tag attrs children => Host tag attrs (map resolve children)
  | Fragment children => Fragment (map resolve children)
  | ListItemElement _ props => ListItem props
  end.

Definition text_of (e : Element) : list string :=
  match e with
  | Text s => [s]
  | _ => []
  end.

(** The texts of the [<li>] elements of a tree, in document order. *)
Fixpoint li_texts (e : Element) : list string :=
  match e with
  | Text _ => []
  | Host tag _ children =>
      if String.eqb tag "li" then flat_map text_of children
      else flat_map li_texts children
  | Fragment children => flat_map li_texts children
  | ListItemElement _ _ => []
  end.

(** The keys of the children of the [<ul>] of the tree [App] returns. *)
Definition key_of (e : Element) : option nat :=
  match e with
  | ListItemElement key _ => Some key
  | _ => None
  end.

(** At the first commit the [<input>] is created, empty, and the ref
    attribute makes [inputRef.current] point to it. *)
Definition attach (c : Instance) : Instance :=
  match current (inputRef c) with
  | Some _ => c
  | None =>
      {| heap := heap c; listState := listState c; queue := queue c;
         inputRef :=
           {| current := Some {| DOM.value := Some "";
                                 DOM.placeholder := input_placeholder |} |} |}
  end.

(** The user edits the control. *)
Definition type_text (v : string) (c : Instance) : Instance :=
  match current (inputRef c) with
  | Some el =>
      {| heap := heap c; listState := listState c; queue := queue c;
         inputRef :=
           {| current := Some {| DOM.value := Some v;
                                 DOM.placeholder := DOM.placeholder el |} |} |}
  | None => c
  end.

Inductive Event :=
| Mount                 (* first render and commit *)
| Input (v : string)    (* the user types [v] into the control *)
| Click                 (* [onClick={() => onSubmit()}] *)
| Render.               (* the host calls [App] again *)

(** After a handler the host renders again when an update is pending. *)
Definition step (e : Event) (c : Instance) : JS.Result Instance :=
  match e with
  | Mount => try tc <- App c in JS.Ok (attach tc.2)
  | Input v => JS.Ok (type_text v c)
  | Click =>
      let c' := onSubmit c in
      match queue c' with
      | [] => JS.Ok c'
      | _ :: _ => try tc <- App c' in JS.Ok tc.2
      end
  | Render => try tc <- App c in JS.Ok tc.2
  end.

Fixpoint run (es : list Event) (c : Instance) : JS.Result Instance :=
  match es with
  | [] => JS.Ok c
  | e :: es' => try c' <- step e c in run es' c'
  end.

(** Typing [v] and pressing the button, for each [v] in turn. *)
Definition submissions (vs : list string) : list Event :=
  flat_map (fun v => [Input v; Click]) vs.

(** What a submit reads from the control, if there is one. *)
Definition read_input (r : RefObject) : option string :=
  match current r with
  | Some el => Some (JS.nullish (DOM.value el) "")
  | None => None
  end.

(** Two scenarios: "Milk" then "Eggs"; a submit with the control blank. *)
Definition milk_eggs : JS.Result Instance :=
  run (Mount :: submissions ["Milk"; "Eggs"]) init.

Definition blank_submit : JS.Result Instance :=
  run [Mount; Click] init.

(** The string the queued function appends when it runs with [r]. *)
Definition appended (r : RefObject) : string :=
  JS.nullish (DOM.opt_value (current r)) "".

(** ** Sample instances *)

Definition control (v : option string) : DOM.HTMLInputElement :=
  {| DOM.value := v; DOM.placeholder := input_placeholder |}.

(** One entry, "Eggs" typed into the control. *)
Definition one_entry : Instance :=
  {| heap := [[]; ["Milk"]]; listState := 1; queue := [];
     inputRef := {| current := Some (control (Some "Eggs")) |} |}.

(** One entry, the control not attached. *)
Definition unmounted : Instance :=
  {| heap := [[]; ["Milk"]]; listState := 1; queue := [];
     inputRef := {| current := None |} |}.

(** One entry, the control blank. *)
Definition blank : Instance :=
  {| heap := [[]; ["Milk"]]; listState := 1; queue := [];
     inputRef := {| current := Some (control (Some "")) |} |}.

(** One entry in another heap layout, the control's value absent, and one
    update still pending. *)
Definition pending : Instance :=
  {| heap := [["Milk"]]; listState := 0; queue := [append_input_value];
     inputRef := {| current := Some (control None) |} |}.

(** The same list, the control without a value and nothing pending. *)
Definition no_value : Instance :=
  {| heap := [["Milk"]]; listState := 0; queue := [];
     inputRef := {| current := Some {| DOM.value := None;
                                       DOM.placeholder := "" |} |} |}.

(** ** The entry point and further host operations *)


(** The host document, as far as the entry point looks at it: the [id]
    attribute, if any, of each of its elements, in document order. *)
Definition Document := list (option string).

(** [document.getElementById(id)]: the first element with that id, or
    null. *)
Definition getElementById (doc : Document) (id : string) : option nat :=
  fst <$> list_find (fun a => a = Some id) doc.

Inductive MountResult :=
| Mounted (container : nat) (committed : Element) (c : Instance)
| NotAContainer            (* the renderer refuses a null container *)
| RenderThrew (e : JS.Error).

(** [ReactDom.render(<App />, container)]: with a container, [App] is
    called for the first time, its tree is rendered into the container and
    the refs are attached. *)
Definition ReactDom_render (container : option nat) : MountResult :=
  match container with
  | None => NotAContainer
  | Some k =>
      match App init with
      | JS.Ok tc => Mounted k (resolve tc.1) (attach tc.2)
      | JS.Throw e => RenderThrew e
      end
  end.

(** [ReactDom.render(<App />, document.getElementById('root'))] *)
Definition main (doc : Document) : MountResult :=
  ReactDom_render (getElementById doc "root").

(** What a user who watches the control expects the list to be after a
    sequence of events: [text] is the text in the control, if there is a
    control; every click with a control adds the text it then shows. *)
Fixpoint typed_log (es : list Event) (text : option string) : list string :=
  match es with
  | [] => []
  | Mount :: es' =>
      typed_log es' (match text with Some v => Some v | None => Some "" end)
  | Input v :: es' =>
      typed_log es' (match text with Some _ => Some v | None => None end)
  | Click :: es' =>
      match text with
      | Some v => v :: typed_log es' text
      | None => typed_log es' text
      end
  | Render :: es' => typed_log es' text
  end.

(** The heap of an instance that has only ever appended: cell [i] is the
    array of the first [i] entries and the state is the last cell. *)
Definition history (c : Instance) (L : list string) : Prop :=
  entries c = Some L
  ∧ listState c = length L
  ∧ length (heap c) = S (length L)
  ∧ ∀ i, (i ≤ length L)%nat → heap c !! i = Some (take i L).

(** ** Checks on the samples *)

Example milk_eggs_entries :
  match milk_eggs with
  | JS.Ok c =>
      entries c = Some ["Milk"; "Eggs"]
      ∧ heap c = [[]; ["Milk"]; ["Milk"; "Eggs"]]
  | JS.Throw _ => False
  end.
Proof. vm_compute. split; reflexivity. Qed.

Example blank_submit_entries :
  match blank_submit with
  | JS.Ok c => entries c = Some [""]
  | JS.Throw _ => False
  end.
Proof. vm_compute. reflexivity. Qed.

Example click_before_mount : step Click init = JS.Ok init.
Proof. reflexivity. Qed.

(** ** Properties of the heap and of the update queue *)

Section Queue.

Variable r : RefObject.

Lemma spread_append_ok (h : JS.Heap) (p : JS.ref) (items : list string) x :
  h !! p = Some items →
  JS.spread_append h p x = JS.Ok (h ++ [items ++ [x]], length h).
Proof. intros Hp. unfold JS.spread_append, JS.alloc. by rewrite Hp. Qed.

Lemma updater_ok (h : JS.Heap) (s : JS.ref) (L : list string) :
  h !! s = Some L →
  updater r h s = JS.Ok (h ++ [L ++ [appended r]], length h).
Proof. intros Hs. unfold updater. by apply spread_append_ok. Qed.

Lemma lookup_new_cell (h : JS.Heap) (a : list string) :
  (h ++ [a]) !! length h = Some a.
Proof. rewrite lookup_app_r by lia. by rewrite Nat.sub_diag. Qed.

(** Running a queue of [n] functions appends [n] strings; the heap only
    grows, and when the queue is not empty the state is a new cell. *)
Lemma process_queue_ok (q : list Update) (h : JS.Heap) (s : JS.ref)
    (L : list string) :
  h !! s = Some L →
  ∃ h' s',
    process_queue q r h s = JS.Ok (h', s')
    ∧ h' !! s' = Some (L ++ replicate (length q) (appended r))
    ∧ h `prefix_of` h'
    ∧ (q = [] → h' = h ∧ s' = s)
    ∧ (q ≠ [] → (length h ≤ s')%nat).
Proof.
  revert h s L. induction q as [|u q IH]; intros h s L Hs.
  - exists h, s. simpl. rewrite app_nil_r. repeat split; done.
  - destruct u. simpl. rewrite (updater_ok _ _ _ Hs). simpl.
    destruct (IH (h ++ [L ++ [appended r]]) (length h) (L ++ [appended r])
                (lookup_new_cell _ _)) as (h' & s' & Hrun & Hlk & Hpre & Hnil & Hne).
    exists h', s'. rewrite Hrun. split; [done|].
    split; [by rewrite Hlk, <- app_assoc|].
    split; [etrans; [apply prefix_app_r; reflexivity | done]|].
    split; [done|]. intros _.
    destruct q as [|u' q'].
    + destruct Hnil as [_ ->]; done.
    + assert (length (h ++ [L ++ [appended r]]) ≤ s')%nat as Hle by (by apply Hne).
      rewrite length_app in Hle. simpl in Hle. lia.
Qed.

End Queue.

(** A reference into a heap stays valid, with the same array, in every
    heap that extends it. *)
Lemma prefix_lookup_Some' (h h' : JS.Heap) (p : JS.ref) (a : list string) :
  h `prefix_of` h' → h !! p = Some a → h' !! p = Some a.
Proof. intros [k ->] Hp. by apply lookup_app_l_Some. Qed.

(** ** Properties of [App] and of the events *)

Lemma App_ok (c : Instance) (L : list string) :
  entries c = Some L →
  ∃ c',
    App c = JS.Ok (view (L ++ replicate (length (queue c)) (appended (inputRef c))), c')
    ∧ entries c' = Some (L ++ replicate (length (queue c)) (appended (inputRef c)))
    ∧ queue c' = []
    ∧ inputRef c' = inputRef c
    ∧ heap c `prefix_of` heap c'
    ∧ (queue c = [] → c' = c)
    ∧ (queue c ≠ [] → (length (heap c) ≤ listState c')%nat).
Proof.
  intros HL. unfold entries in HL.
  destruct (process_queue_ok (inputRef c) (queue c) _ _ _ HL)
    as (h' & s' & Hrun & Hlk & Hpre & Hnil & Hne).
  eexists. unfold App, useState. rewrite Hrun. simpl. rewrite Hlk.
  split; [reflexivity|]. simpl. unfold entries. simpl.
  repeat split; try done.
  intros Hq. destruct (Hnil Hq) as [-> ->]. destruct c; simpl in *. by subst.
Qed.

Lemma onSubmit_attached (c : Instance) (el : DOM.HTMLInputElement) :
  current (inputRef c) = Some el →
  onSubmit c = setList append_input_value c.
Proof. intros H. unfold onSubmit. by rewrite H. Qed.

Lemma onSubmit_detached (c : Instance) :
  current (inputRef c) = None → onSubmit c = c.
Proof. intros H. unfold onSubmit. by rewrite H. Qed.

(** The handler only ever touches the queue. *)
Lemma onSubmit_frame (c : Instance) :
  heap (onSubmit c) = heap c
  ∧ listState (onSubmit c) = listState c
  ∧ inputRef (onSubmit c) = inputRef c
  ∧ entries (onSubmit c) = entries c.
Proof. unfold onSubmit. by destruct (JS.truthy _). Qed.

(** A click on a quiescent instance with an attached control. *)
Lemma click_attached (c : Instance) (L : list string)
    (el : DOM.HTMLInputElement) :
  entries c = Some L → queue c = [] → current (inputRef c) = Some el →
  ∃ c',
    step Click c = JS.Ok c'
    ∧ entries c' = Some (L ++ [JS.nullish (DOM.value el) ""])
    ∧ queue c' = []
    ∧ inputRef c' = inputRef c
    ∧ heap c `prefix_of` heap c'
    ∧ (length (heap c) ≤ listState c')%nat.
Proof.
  intros HL Hq Hel. simpl. rewrite (onSubmit_attached _ _ Hel).
  assert (entries (setList append_input_value c) = Some L) as HL' by done.
  destruct (App_ok _ _ HL') as (c' & HApp & He & Hq' & Hr & Hpre & _ & Hfresh).
  exists c'. simpl. rewrite Hq. simpl. fold (setList append_input_value c).
  rewrite HApp. simpl in *. rewrite Hq in *. simpl in *.
  unfold appended in He. rewrite Hel in He. simpl in He.
  repeat split; try done. by apply Hfresh.
Qed.

Lemma click_detached (c : Instance) :
  queue c = [] → current (inputRef c) = None → step Click c = JS.Ok c.
Proof. intros Hq Hn. simpl. rewrite (onSubmit_detached _ Hn). by rewrite Hq. Qed.

Lemma type_text_frame (v : string) (c : Instance) :
  entries (type_text v c) = entries c
  ∧ queue (type_text v c) = queue c
  ∧ read_input (inputRef (type_text v c))
    = match current (inputRef c) with Some _ => Some v | None => None end.
Proof.
  unfold type_text, read_input.
  destruct (current (inputRef c)) eqn:E; simpl; [done|]. by rewrite E.
Qed.

Lemma attach_frame (c : Instance) :
  entries (attach c) = entries c
  ∧ queue (attach c) = queue c
  ∧ is_Some (current (inputRef (attach c))).
Proof.
  unfold attach. destruct (current (inputRef c)) eqn:E; simpl.
  - rewrite E. eauto.
  - eauto.
Qed.

(** Every event keeps a quiescent instance quiescent, extends the list at
    its end only, and only a click with an attached control extends it. *)
Lemma step_grows (e : Event) (c : Instance) (L : list string) :
  entries c = Some L → queue c = [] →
  ∃ c' L',
    step e c = JS.Ok c'
    ∧ entries c' = Some L'
    ∧ queue c' = []
    ∧ L `prefix_of` L'
    ∧ length L' =
        (length L + match e, current (inputRef c) with
                    | Click, Some _ => 1
                    | _, _ => 0
                    end)%nat.
Proof.
  intros HL Hq. destruct e as [|v| |].
  - destruct (App_ok _ _ HL) as (c' & HApp & _ & _ & _ & _ & Hsame & _).
    rewrite (Hsame Hq) in HApp. exists (attach c), L. simpl. rewrite HApp.
    destruct (attach_frame c) as (He & Hq' & _).
    rewrite He, Hq'. repeat split; done || lia.
  - exists (type_text v c), L. destruct (type_text_frame v c) as (He & Hq' & _).
    simpl. rewrite He, Hq'. repeat split; done || lia.
  - destruct (current (inputRef c)) as [el|] eqn:Hel.
    + destruct (click_attached _ _ _ HL Hq Hel)
        as (c' & Hs & He & Hq' & _ & _ & _).
      exists c', (L ++ [JS.nullish (DOM.value el) ""]).
      repeat split; try done.
      * by apply prefix_app_r.
      * rewrite length_app. simpl. lia.
    + exists c, L. rewrite (click_detached _ Hq Hel).
      repeat split; done || lia.
  - destruct (App_ok _ _ HL) as (c' & HApp & _ & _ & _ & _ & Hsame & _).
    rewrite (Hsame Hq) in HApp. exists c, L. simpl. rewrite HApp.
    repeat split; done || lia.
Qed.

(** The same over any sequence of events. *)
Lemma run_grows (es : list Event) (c : Instance) (L : list string) :
  entries c = Some L → queue c = [] →
  ∃ c' L',
    run es c = JS.Ok c' ∧ entries c' = Some L' ∧ queue c' = []
    ∧ L `prefix_of` L'.
Proof.
  revert c L. induction es as [|e es IH]; intros c L HL Hq.
  - exists c, L. by repeat split.
  - destruct (step_grows e _ _ HL Hq) as (c1 & L1 & Hs & H1 & Hq1 & Hp1 & _).
    destruct (IH _ _ H1 Hq1) as (c2 & L2 & Hr & H2 & Hq2 & Hp2).
    exists c2, L2. simpl. rewrite Hs. simpl.
    repeat split; try done. by etrans.
Qed.

(** Typing and submitting each of [vs] in turn appends [vs]. *)
Lemma run_submissions (vs : list string) (c : Instance) (L : list string) :
  entries c = Some L → queue c = [] → is_Some (current (inputRef c)) →
  ∃ c',
    run (submissions vs) c = JS.Ok c'
    ∧ entries c' = Some (L ++ vs)
    ∧ queue c' = []
    ∧ is_Some (current (inputRef c')).
Proof.
  revert c L. induction vs as [|v vs IH]; intros c L HL Hq [el Hel].
  - exists c. simpl. rewrite app_nil_r. eauto.
  - pose (c1 := type_text v c).
    assert (entries c1 = Some L ∧ queue c1 = []
            ∧ current (inputRef c1)
              = Some {| DOM.value := Some v;
                        DOM.placeholder := DOM.placeholder el |})
      as (HL1 & Hq1 & Hel1).
    { unfold c1, type_text. rewrite Hel. by repeat split. }
    destruct (click_attached _ _ _ HL1 Hq1 Hel1)
      as (c2 & Hs & He & Hq2 & Hr & _ & _).
    simpl in He.
    assert (is_Some (current (inputRef c2))) as Hat by (rewrite Hr, Hel1; eauto).
    destruct (IH _ _ He Hq2 Hat) as (c3 & Hrun & He3 & Hq3 & Hat3).
    exists c3. change (submissions (v :: vs))
      with (Input v :: Click :: submissions vs).
    cbn [run]. change (step (Input v) c) with (JS.Ok c1). cbn [JS.bind].
    rewrite Hs. cbn [JS.bind]. rewrite Hrun.
    rewrite <- app_assoc in He3. by repeat split.
Qed.

(** ** Properties of the rendered tree *)

Lemma list_items_lookup (L : list string) (i : nat) :
  list_items L !! i
  = (fun v => ListItemElement i {| value := v |}) <$> L !! i.
Proof. unfold list_items. by rewrite list_lookup_imap. Qed.

Lemma li_texts_items (f : nat → string → Element) (L : list string) :
  (∀ i v, resolve (f i v) = ListItem {| value := v |}) →
  flat_map li_texts (map resolve (imap f L)) = L.
Proof.
  revert f. induction L as [|v L IH]; intros f Hf; [done|].
  rewrite imap_cons. cbn [map flat_map]. rewrite Hf.
  rewrite IH by (intros i w; apply Hf). reflexivity.
Qed.

Lemma li_texts_view (L : list string) : li_texts (resolve (view L)) = L.
Proof.
  unfold view. cbn [resolve map li_texts flat_map String.eqb Ascii.eqb Bool.eqb].
  cbn. rewrite app_nil_r. unfold list_items. by apply li_texts_items.
Qed.

(** ** The claims *)

(** C1: for every entries list [L] and every attached control whose value
    is [v], a submit replaces the entries with [L] followed by [v]; the new
    list is a new array (a cell the heap did not have), and the array that
    held [L], like every other array, is left as it was. *)
Theorem onSubmit_appends_fresh (c : Instance) (L : list string)
    (el : DOM.HTMLInputElement) (v : string) :
  entries c = Some L → queue c = [] →
  current (inputRef c) = Some el → DOM.value el = Some v →
  ∃ c',
    step Click c = JS.Ok c'
    ∧ entries c' = Some (L ++ [v])
    ∧ heap c !! listState c' = None
    ∧ listState c' ≠ listState c
    ∧ heap c' !! listState c = Some L
    ∧ heap c `prefix_of` heap c'.
Proof.
  intros HL Hq Hel Hv.
  destruct (click_attached _ _ _ HL Hq Hel)
    as (c' & Hs & He & _ & _ & Hpre & Hfresh).
  rewrite Hv in He. simpl in He. exists c'.
  assert (heap c !! listState c' = None) as Hnone
    by (by apply lookup_ge_None_2).
  repeat split; try done.
  - intros Heq. rewrite Heq in Hnone. unfold entries in HL. congruence.
  - by apply (prefix_lookup_Some' _ _ _ _ Hpre).
Qed.

Lemma onSubmit_appends_fresh_witness :
  ∃ c',
    step Click one_entry = JS.Ok c'
    ∧ entries c' = Some (["Milk"] ++ ["Eggs"])
    ∧ heap one_entry !! listState c' = None
    ∧ listState c' ≠ listState one_entry
    ∧ heap c' !! listState one_entry = Some ["Milk"]
    ∧ heap one_entry `prefix_of` heap c'.
Proof.
  apply (onSubmit_appends_fresh one_entry ["Milk"] (control (Some "Eggs")) "Eggs");
    reflexivity.
Defined.

(** C2: when [inputRef.current] is null, [onSubmit] does nothing: the
    instance, and so its entries, is exactly what it was, nothing is
    appended and the click ends without an error. *)
Theorem onSubmit_unresolved_noop (c : Instance) (L : list string) :
  entries c = Some L → queue c = [] → current (inputRef c) = None →
  onSubmit c = c
  ∧ step Click c = JS.Ok c
  ∧ entries (onSubmit c) = Some L.
Proof.
  intros HL Hq Hn. rewrite (onSubmit_detached _ Hn).
  by rewrite (click_detached _ Hq Hn).
Qed.

Lemma onSubmit_unresolved_noop_witness :
  onSubmit unmounted = unmounted
  ∧ step Click unmounted = JS.Ok unmounted
  ∧ entries (onSubmit unmounted) = Some ["Milk"].
Proof. apply (onSubmit_unresolved_noop unmounted ["Milk"]); reflexivity. Defined.

(** C3: from the initial instance, once mounted, typing and submitting
    [v1 .. vN] in turn ends without error with entries exactly [v1 .. vN],
    and the tree [App] then returns lists exactly these, in this order,
    [N] of them. *)
Theorem submissions_from_init (vs : list string) :
  ∃ c t,
    run (Mount :: submissions vs) init = JS.Ok c
    ∧ entries c = Some vs
    ∧ App c = JS.Ok (t, c)
    ∧ li_texts (resolve t) = vs
    ∧ length (li_texts (resolve t)) = length vs.
Proof.
  assert (entries (attach init) = Some [] ∧ queue (attach init) = []
          ∧ is_Some (current (inputRef (attach init)))) as (H0 & Hq0 & Hat0).
  { vm_compute. eauto. }
  destruct (run_submissions vs _ _ H0 Hq0 Hat0) as (c & Hrun & He & Hq & _).
  simpl in He.
  destruct (App_ok _ _ He) as (c' & HApp & _ & _ & _ & _ & Hsame & _).
  rewrite (Hsame Hq) in HApp. rewrite Hq in HApp. simpl in HApp.
  rewrite app_nil_r in HApp.
  exists c, (view vs). cbn [run]. change (step Mount init) with (JS.Ok (attach init)).
  cbn [JS.bind]. rewrite li_texts_view. by repeat split.
Qed.

(** C4: every operation on a quiescent instance (mounting, typing, a
    click, a render) ends without error in a quiescent instance whose
    entries have the previous entries as a prefix; the length grows by one
    at a click with an attached control and by nothing otherwise. *)
Theorem entries_only_grow (e : Event) (c : Instance) (L : list string) :
  entries c = Some L → queue c = [] →
  ∃ c' L',
    step e c = JS.Ok c'
    ∧ entries c' = Some L'
    ∧ queue c' = []
    ∧ L `prefix_of` L'
    ∧ length L' =
        (length L + match e, current (inputRef c) with
                    | Click, Some _ => 1
                    | _, _ => 0
                    end)%nat.
Proof. apply step_grows. Qed.

Lemma entries_only_grow_witness :
  ∃ c' L',
    step Click one_entry = JS.Ok c'
    ∧ entries c' = Some L'
    ∧ queue c' = []
    ∧ ["Milk"] `prefix_of` L'
    ∧ length L' = 2.
Proof. apply (entries_only_grow Click one_entry ["Milk"]); reflexivity. Defined.

(** C5: for every entries list, [App] returns the fragment of a heading, a
    [<ul>] with one [ListItem] element per entry, in order, the element at
    index [i] having key [i] and rendering as an [<li>] with the entry's
    text, an [<input>] with the ref and the placeholder
    "Enter a new item", and a [<button>] labelled "Submit" that calls
    [onSubmit]; the texts of the rendered list are the entries. *)
Theorem App_renders_entries (c : Instance) (L : list string) :
  entries c = Some L → queue c = [] →
  ∃ t items,
    App c = JS.Ok (t, c)
    ∧ t = Fragment
            [ Host "h1" [] [Text "To-Do List"];
              Host "ul" [] items;
              Host "input" [ref_attr inputRef_handle;
                            placeholder_attr "Enter a new item"] [];
              Host "button" [onClick_attr call_onSubmit] [Text "Submit"] ]
    ∧ length items = length L
    ∧ (∀ i v, L !! i = Some v →
         items !! i = Some (ListItemElement i {| value := v |})
         ∧ key_of <$> items !! i = Some (Some i)
         ∧ resolve <$> items !! i = Some (Host "li" [] [Text v]))
    ∧ (∀ i, L !! i = None → items !! i = None)
    ∧ li_texts (resolve t) = L.
Proof.
  intros HL Hq.
  destruct (App_ok _ _ HL) as (c' & HApp & _ & _ & _ & _ & Hsame & _).
  rewrite (Hsame Hq) in HApp. rewrite Hq in HApp. simpl in HApp.
  rewrite app_nil_r in HApp.
  exists (view L), (list_items L). split; [done|]. split; [done|].
  split; [unfold list_items; by rewrite length_imap|].
  split; [|split].
  - intros i v Hi. rewrite list_items_lookup, Hi. by repeat split.
  - intros i Hi. by rewrite list_items_lookup, Hi.
  - apply li_texts_view.
Qed.

Lemma App_renders_entries_witness :
  ∃ t items,
    App one_entry = JS.Ok (t, one_entry)
    ∧ t = Fragment
            [ Host "h1" [] [Text "To-Do List"];
              Host "ul" [] items;
              Host "input" [ref_attr inputRef_handle;
                            placeholder_attr "Enter a new item"] [];
              Host "button" [onClick_attr call_onSubmit] [Text "Submit"] ]
    ∧ length items = 1
    ∧ (∀ i v, ["Milk"] !! i = Some v →
         items !! i = Some (ListItemElement i {| value := v |})
         ∧ key_of <$> items !! i = Some (Some i)
         ∧ resolve <$> items !! i = Some (Host "li" [] [Text v]))
    ∧ (∀ i, ["Milk"] !! i = None → items !! i = None)
    ∧ li_texts (resolve t) = ["Milk"].
Proof. apply (App_renders_entries one_entry ["Milk"]); reflexivity. Defined.

(** C6: a submit while the control is attached and its value is the empty
    string, or absent, appends the empty string: the entries are [L]
    followed by "", one longer than [L]. *)
Theorem onSubmit_blank_appends (c : Instance) (L : list string)
    (el : DOM.HTMLInputElement) :
  entries c = Some L → queue c = [] → current (inputRef c) = Some el →
  DOM.value el = Some "" ∨ DOM.value el = None →
  ∃ c',
    step Click c = JS.Ok c'
    ∧ entries c' = Some (L ++ [""])
    ∧ length (L ++ [""]) = S (length L).
Proof.
  intros HL Hq Hel Hv.
  destruct (click_attached _ _ _ HL Hq Hel) as (c' & Hs & He & _).
  exists c'. split; [done|]. split.
  - by destruct Hv as [Hv|Hv]; rewrite Hv in He.
  - rewrite length_app. simpl. lia.
Qed.

Lemma onSubmit_blank_appends_witness :
  (∃ c', step Click blank = JS.Ok c'
         ∧ entries c' = Some (["Milk"] ++ [""])
         ∧ length (["Milk"] ++ [""]) = 2)
  ∧ (∃ c', step Click no_value = JS.Ok c'
           ∧ entries c' = Some (["Milk"] ++ [""])
           ∧ length (["Milk"] ++ [""]) = 2).
Proof.
  split.
  - apply (onSubmit_blank_appends blank ["Milk"] (control (Some "")));
      try reflexivity. left. reflexivity.
  - apply (onSubmit_blank_appends no_value ["Milk"]
             {| DOM.value := None; DOM.placeholder := "" |});
      try reflexivity. right. reflexivity.
Defined.

(** C7: a render of any instance ends without error, and a second render
    with no submit in between returns the same tree and leaves the instance
    as the first left it; the tree is the same for every quiescent instance
    with the same entries; and [ListItem] of a value is the one [<li>]
    with that value as its text, whatever the key. *)
Theorem render_idempotent (c : Instance) (L : list string) :
  entries c = Some L →
  ∃ t c',
    App c = JS.Ok (t, c')
    ∧ App c' = JS.Ok (t, c')
    ∧ (∀ d, entries d = entries c' → queue d = [] → App d = JS.Ok (t, d))
    ∧ (∀ key v, resolve (ListItemElement key {| value := v |})
                = Host "li" [] [Text v])
    ∧ (∀ v, ListItem {| value := v |} = Host "li" [] [Text v]).
Proof.
  intros HL.
  destruct (App_ok _ _ HL) as (c' & HApp & He & Hq & _).
  assert (∀ d, entries d = entries c' → queue d = [] →
               App d = JS.Ok (view (L ++ replicate (length (queue c))
                                      (appended (inputRef c))), d)) as Hd.
  { intros d Hed Hqd. rewrite He in Hed.
    destruct (App_ok _ _ Hed) as (d' & HAd & _ & _ & _ & _ & Hsame & _).
    rewrite (Hsame Hqd) in HAd. rewrite Hqd in HAd. simpl in HAd.
    by rewrite app_nil_r in HAd. }
  eexists _, c'. split; [exact HApp|].
  split; [by apply Hd|]. split; [exact Hd|]. by split.
Qed.

Lemma render_idempotent_witness :
  ∃ t c',
    App pending = JS.Ok (t, c')
    ∧ App c' = JS.Ok (t, c')
    ∧ (∀ d, entries d = entries c' → queue d = [] → App d = JS.Ok (t, d))
    ∧ (∀ key v, resolve (ListItemElement key {| value := v |})
                = Host "li" [] [Text v])
    ∧ (∀ v, ListItem {| value := v |} = Host "li" [] [Text v]).
Proof. apply (render_idempotent pending ["Milk"]); reflexivity. Defined.

(** C8: [onSubmit] writes neither the ref nor the control it points to,
    nor the state itself: it only queues an update.  After the click the
    ref and the control's value are what they were, and every array the
    heap held is unchanged; what changed is the entries. *)
Theorem onSubmit_keeps_input (c : Instance) (L : list string) :
  entries c = Some L →
  inputRef (onSubmit c) = inputRef c
  ∧ heap (onSubmit c) = heap c
  ∧ listState (onSubmit c) = listState c
  ∧ ∃ c',
      step Click c = JS.Ok c'
      ∧ inputRef c' = inputRef c
      ∧ read_input (inputRef c') = read_input (inputRef c)
      ∧ heap c `prefix_of` heap c'.
Proof.
  intros HL. destruct (onSubmit_frame c) as (Hh & Hs & Hr & He).
  repeat (split; [done|]).
  rewrite HL in He.
  destruct (App_ok _ _ He) as (c' & HApp & _ & _ & Hr' & Hpre & _).
  unfold step. destruct (queue (onSubmit c)) eqn:Hq.
  - exists (onSubmit c). rewrite Hr, Hh. by repeat split.
  - exists c'. rewrite HApp. simpl. rewrite Hr', Hr. rewrite Hh in Hpre.
    by repeat split.
Qed.

Lemma onSubmit_keeps_input_witness :
  inputRef (onSubmit one_entry) = inputRef one_entry
  ∧ heap (onSubmit one_entry) = heap one_entry
  ∧ listState (onSubmit one_entry) = listState one_entry
  ∧ ∃ c',
      step Click one_entry = JS.Ok c'
      ∧ inputRef c' = inputRef one_entry
      ∧ read_input (inputRef c') = read_input (inputRef one_entry)
      ∧ heap one_entry `prefix_of` heap c'.
Proof. apply (onSubmit_keeps_input one_entry ["Milk"]); reflexivity. Defined.

(** C9: whatever the entries and whatever the ref holds (null, a control
    with a value, a control without one), also with updates still pending,
    the click ends without an error; and the queued function ends without
    an error on every list whatever the ref holds when it runs. *)
Theorem onSubmit_never_throws (c : Instance) (L : list string) :
  entries c = Some L →
  (∃ c', step Click c = JS.Ok c')
  ∧ (∀ r, ∃ hs, updater r (heap c) (listState c) = JS.Ok hs)
  ∧ (∀ r, ∃ hs,
       process_queue (queue (onSubmit c)) r (heap c) (listState c)
       = JS.Ok hs).
Proof.
  intros HL. split; [|split].
  - destruct (onSubmit_frame c) as (_ & _ & _ & He). rewrite HL in He.
    destruct (App_ok _ _ He) as (c' & HApp & _).
    unfold step. destruct (queue (onSubmit c)); [eauto|].
    rewrite HApp. simpl. eauto.
  - intros r. rewrite (updater_ok r _ _ _ HL). eauto.
  - intros r.
    destruct (process_queue_ok r (queue (onSubmit c)) _ _ _ HL)
      as (h' & s' & Hrun & _). eauto.
Qed.

Lemma onSubmit_never_throws_witness :
  (∃ c', step Click pending = JS.Ok c')
  ∧ (∀ r, ∃ hs, updater r (heap pending) (listState pending) = JS.Ok hs)
  ∧ (∀ r, ∃ hs,
       process_queue (queue (onSubmit pending)) r (heap pending)
         (listState pending)
       = JS.Ok hs).
Proof. apply (onSubmit_never_throws pending ["Milk"]); reflexivity. Defined.

(** C10: two clicks on quiescent instances with equal entries and an equal
    value read from the control end with equal entries, whatever else
    differs between the instances (the heap, the place of the list in it,
    the other fields of the control). *)
Theorem onSubmit_deterministic (c1 c2 : Instance) (L : list string) :
  entries c1 = Some L → entries c2 = Some L →
  queue c1 = [] → queue c2 = [] →
  read_input (inputRef c1) = read_input (inputRef c2) →
  ∃ d1 d2,
    step Click c1 = JS.Ok d1
    ∧ step Click c2 = JS.Ok d2
    ∧ entries d1 = entries d2.
Proof.
  intros H1 H2 Hq1 Hq2 Hr. unfold read_input in Hr.
  destruct (current (inputRef c1)) as [e1|] eqn:E1;
    destruct (current (inputRef c2)) as [e2|] eqn:E2; try discriminate.
  - destruct (click_attached _ _ _ H1 Hq1 E1) as (d1 & Hs1 & He1 & _).
    destruct (click_attached _ _ _ H2 Hq2 E2) as (d2 & Hs2 & He2 & _).
    exists d1, d2. repeat split; try done. rewrite He1, He2. congruence.
  - exists c1, c2. rewrite (click_detached _ Hq1 E1), (click_detached _ Hq2 E2).
    repeat split; try done. congruence.
Qed.

Lemma onSubmit_deterministic_witness :
  ∃ d1 d2,
    step Click blank = JS.Ok d1
    ∧ step Click no_value = JS.Ok d2
    ∧ entries d1 = entries d2.
Proof. apply (onSubmit_deterministic blank no_value ["Milk"]); reflexivity. Defined.

(** ** Further properties: exact steps, traces and the heap's history *)

Lemma App_quiescent (c : Instance) (L : list string) :
  entries c = Some L → queue c = [] → App c = JS.Ok (view L, c).
Proof.
  intros HL Hq.
  destruct (App_ok _ _ HL) as (c' & HApp & _ & _ & _ & _ & Hsame & _).
  rewrite (Hsame Hq), Hq in HApp. simpl in HApp. by rewrite app_nil_r in HApp.
Qed.

(** A render with one pending update, in full. *)
Lemma App_one_pending (c : Instance) (L : list string) :
  entries c = Some L → queue c = [append_input_value] →
  App c = JS.Ok (view (L ++ [appended (inputRef c)]),
                 {| heap := heap c ++ [L ++ [appended (inputRef c)]];
                    listState := length (heap c);
                    queue := [];
                    inputRef := inputRef c |}).
Proof.
  intros HL Hq. unfold App, useState. rewrite Hq. cbn [process_queue run_update].
  rewrite (updater_ok _ _ _ _ HL). cbn [JS.bind fst snd heap listState].
  by rewrite lookup_new_cell.
Qed.

(** What each event does to a quiescent instance, in full. *)
Lemma step_quiescent (e : Event) (c : Instance) (L : list string) :
  entries c = Some L → queue c = [] →
  step e c =
    JS.Ok match e with
          | Mount => attach c
          | Input v => type_text v c
          | Click =>
              match current (inputRef c) with
              | Some el =>
                  {| heap := heap c ++ [L ++ [JS.nullish (DOM.value el) ""]];
                     listState := length (heap c);
                     queue := [];
                     inputRef := inputRef c |}
              | None => c
              end
          | Render => c
          end.
Proof.
  intros HL Hq. destruct e as [|v| |]; cbn [step].
  - by rewrite (App_quiescent _ _ HL Hq).
  - done.
  - destruct (current (inputRef c)) as [el|] eqn:Hel.
    + rewrite (onSubmit_attached _ _ Hel).
      assert (queue (setList append_input_value c) = [append_input_value])
        as Hq1 by (simpl; by rewrite Hq).
      rewrite Hq1.
      assert (entries (setList append_input_value c) = Some L) as HL1 by done.
      rewrite (App_one_pending _ _ HL1 Hq1). cbn.
      unfold appended. by rewrite Hel.
    + rewrite (onSubmit_detached _ Hel). by rewrite Hq.
  - by rewrite (App_quiescent _ _ HL Hq).
Qed.

Lemma read_input_attach (c : Instance) :
  read_input (inputRef (attach c))
  = match read_input (inputRef c) with
    | Some v => Some v
    | None => Some ""
    end.
Proof.
  unfold attach, read_input.
  destruct (current (inputRef c)) as [el|] eqn:Hel; simpl; [|done].
  by rewrite Hel.
Qed.

Lemma read_input_type_text (v : string) (c : Instance) :
  read_input (inputRef (type_text v c))
  = match read_input (inputRef c) with
    | Some _ => Some v
    | None => None
    end.
Proof.
  unfold type_text, read_input.
  destruct (current (inputRef c)) as [el|] eqn:Hel; simpl; [done|].
  by rewrite Hel.
Qed.

(** The entries after any sequence of events are the entries before
    followed by what [typed_log] says. *)
Lemma run_typed_log (es : list Event) (c : Instance) (L : list string) :
  entries c = Some L → queue c = [] →
  ∃ c',
    run es c = JS.Ok c'
    ∧ entries c' = Some (L ++ typed_log es (read_input (inputRef c)))
    ∧ queue c' = [].
Proof.
  revert c L. induction es as [|e es IH]; intros c L HL Hq.
  - exists c. simpl. by rewrite app_nil_r.
  - cbn [run]. rewrite (step_quiescent e _ _ HL Hq). cbn [JS.bind].
    destruct e as [|v| |].
    + destruct (attach_frame c) as (He & Hq' & _).
      destruct (IH (attach c) L) as (c' & Hrun & He' & Hq'');
        [by rewrite He|by rewrite Hq'|].
      exists c'. rewrite read_input_attach in He'. by cbn [typed_log].
    + destruct (type_text_frame v c) as (He & Hq' & _).
      destruct (IH (type_text v c) L) as (c' & Hrun & He' & Hq'');
        [by rewrite He|by rewrite Hq'|].
      exists c'. rewrite read_input_type_text in He'. by cbn [typed_log].
    + unfold read_input. destruct (current (inputRef c)) as [el|] eqn:Hel.
      * set (x := JS.nullish (DOM.value el) "").
        set (c1 := {| heap := heap c ++ [L ++ [x]]; listState := length (heap c);
                      queue := []; inputRef := inputRef c |}).
        assert (entries c1 = Some (L ++ [x])) as H1
          by (unfold entries, c1; simpl; apply lookup_new_cell).
        destruct (IH c1 _ H1 eq_refl) as (c' & Hrun & He' & Hq').
        exists c'. cbn [typed_log]. split; [done|]. split; [|done].
        rewrite He'. unfold c1, read_input. simpl. rewrite Hel.
        by rewrite <- app_assoc.
      * destruct (IH c L HL Hq) as (c' & Hrun & He' & Hq').
        exists c'. cbn [typed_log]. unfold read_input in He'.
        by rewrite Hel in He'.
    + destruct (IH c L HL Hq) as (c' & Hrun & He' & Hq').
      exists c'. by cbn [typed_log].
Qed.

Lemma history_init : history init [].
Proof.
  unfold history. do 3 (split; [reflexivity|]).
  intros i Hi. simpl in Hi. assert (i = 0) as -> by lia. reflexivity.
Qed.

Lemma history_append (c : Instance) (L : list string) (x : string) :
  history c L →
  history {| heap := heap c ++ [L ++ [x]]; listState := length (heap c);
             queue := []; inputRef := inputRef c |} (L ++ [x]).
Proof.
  intros (He & Hs & Hlen & Hcells). unfold history, entries.
  cbn [heap listState]. rewrite !length_app. cbn [length].
  split; [apply lookup_new_cell|]. split; [lia|]. split; [lia|].
  intros i Hi. destruct (decide (i ≤ length L)%nat) as [Hle|Hgt].
  - rewrite take_app_le by done.
    etrans; [apply lookup_app_l; lia|]. by apply Hcells.
  - assert (i = length (heap c)) as -> by lia.
    etrans; [apply lookup_new_cell|].
    rewrite Hlen. replace (S (length L)) with (length (L ++ [x]))
      by (rewrite length_app; simpl; lia).
    by rewrite firstn_all.
Qed.

Lemma history_frame (c d : Instance) (L : list string) :
  heap d = heap c → listState d = listState c → history c L → history d L.
Proof. unfold history, entries. intros -> ->. done. Qed.

Lemma run_history (es : list Event) (c : Instance) (L : list string) :
  history c L → queue c = [] →
  ∃ c' L', run es c = JS.Ok c' ∧ history c' L' ∧ queue c' = [].
Proof.
  revert c L. induction es as [|e es IH]; intros c L Hh Hq.
  - by exists c, L.
  - cbn [run]. rewrite (step_quiescent e _ _ (proj1 Hh) Hq). cbn [JS.bind].
    destruct e as [|v| |].
    + apply (IH (attach c) L).
      * apply (history_frame c); [| |done]; unfold attach;
          by destruct (current (inputRef c)).
      * by destruct (attach_frame c) as (_ & -> & _).
    + apply (IH (type_text v c) L).
      * apply (history_frame c); [| |done]; unfold type_text;
          by destruct (current (inputRef c)).
      * by destruct (type_text_frame v c) as (_ & -> & _).
    + destruct (current (inputRef c)) as [el|].
      * eapply IH; [by apply history_append|done].
      * by apply (IH c L).
    + by apply (IH c L).
Qed.

Lemma iter_onSubmit (k : nat) (c : Instance) (el : DOM.HTMLInputElement) :
  current (inputRef c) = Some el →
  heap (Nat.iter k onSubmit c) = heap c
  ∧ listState (Nat.iter k onSubmit c) = listState c
  ∧ inputRef (Nat.iter k onSubmit c) = inputRef c
  ∧ queue (Nat.iter k onSubmit c)
    = queue c ++ replicate k append_input_value.
Proof.
  intros Hel. induction k as [|k (Hh & Hs & Hr & Hq)].
  - simpl. by rewrite app_nil_r.
  - change (Nat.iter (S k) onSubmit c) with (onSubmit (Nat.iter k onSubmit c)).
    rewrite (onSubmit_attached _ el) by (by rewrite Hr).
    cbn [setList heap listState inputRef queue].
    rewrite Hq, replicate_S_end, app_assoc. done.
Qed.

Lemma list_items_snoc (L : list string) (v : string) :
  list_items (L ++ [v])
  = list_items L ++ [ListItemElement (length L) {| value := v |}].
Proof.
  unfold list_items. rewrite imap_app. cbn [imap]. by rewrite Nat.add_0_r.
Qed.

(** ** Further properties *)

(** X1: the render after a submit has the children of the [<ul>] of the
    render before it, each with the key and value it had, followed by one
    new [ListItem] element whose key is the old length of the list. *)
Theorem click_extends_children (c : Instance) (L : list string)
    (el : DOM.HTMLInputElement) :
  entries c = Some L → queue c = [] → current (inputRef c) = Some el →
  ∃ c',
    App c = JS.Ok (view L, c)
    ∧ step Click c = JS.Ok c'
    ∧ App c' = JS.Ok (view (L ++ [JS.nullish (DOM.value el) ""]), c')
    ∧ list_items (L ++ [JS.nullish (DOM.value el) ""])
      = list_items L
        ++ [ListItemElement (length L)
              {| value := JS.nullish (DOM.value el) "" |}].
Proof.
  intros HL Hq Hel.
  destruct (click_attached _ _ _ HL Hq Hel) as (c' & Hs & He & Hq' & _).
  exists c'. split; [by apply App_quiescent|]. split; [done|].
  split; [by apply App_quiescent|]. apply list_items_snoc.
Qed.

Lemma click_extends_children_witness :
  ∃ c',
    App one_entry = JS.Ok (view ["Milk"], one_entry)
    ∧ step Click one_entry = JS.Ok c'
    ∧ App c' = JS.Ok (view (["Milk"] ++ ["Eggs"]), c')
    ∧ list_items (["Milk"] ++ ["Eggs"])
      = list_items ["Milk"] ++ [ListItemElement 1 {| value := "Eggs" |}].
Proof.
  apply (click_extends_children one_entry ["Milk"] (control (Some "Eggs")));
    reflexivity.
Defined.

(** X2: the keys of the list elements are 0, 1, ..., one per entry, so no
    two elements of a render have the same key, also when entries are
    equal. *)
Theorem list_items_keys_distinct (L : list string) :
  key_of <$> list_items L = Some <$> seq 0 (length L)
  ∧ NoDup (key_of <$> list_items L).
Proof.
  assert (key_of <$> list_items L = Some <$> seq 0 (length L)) as Hk.
  { unfold list_items. rewrite fmap_imap.
    rewrite <- (imap_seq_0 L Some). by apply imap_ext. }
  split; [done|]. rewrite Hk. apply NoDup_fmap_2; [apply _|apply NoDup_seq].
Qed.

(** X3: [k] calls of [onSubmit] before the next render, with a control
    attached, are all kept: the render runs them in order and the entries
    grow by [k] copies of the control's value; the queue is then empty. *)
Theorem batched_submits (k : nat) (c : Instance) (L : list string)
    (el : DOM.HTMLInputElement) :
  entries c = Some L → queue c = [] → current (inputRef c) = Some el →
  ∃ t c',
    App (Nat.iter k onSubmit c) = JS.Ok (t, c')
    ∧ entries c' = Some (L ++ replicate k (JS.nullish (DOM.value el) ""))
    ∧ li_texts (resolve t) = L ++ replicate k (JS.nullish (DOM.value el) "")
    ∧ queue c' = []
    ∧ inputRef c' = inputRef c.
Proof.
  intros HL Hq Hel.
  destruct (iter_onSubmit k c el Hel) as (Hh & Hs & Hr & Hqk).
  assert (entries (Nat.iter k onSubmit c) = Some L) as HLk
    by (unfold entries; by rewrite Hh, Hs).
  destruct (App_ok _ _ HLk) as (c' & HApp & He & Hq' & Hr' & _).
  rewrite Hqk, Hq, Hr in HApp, He. simpl in HApp, He.
  rewrite length_replicate in HApp, He.
  unfold appended in HApp, He. rewrite Hel in HApp, He. simpl in HApp, He.
  eexists _, c'. split; [exact HApp|]. split; [done|].
  split; [apply li_texts_view|]. split; [done|]. by rewrite Hr'.
Qed.

Lemma batched_submits_witness :
  ∃ t c',
    App (Nat.iter 3 onSubmit one_entry) = JS.Ok (t, c')
    ∧ entries c' = Some (["Milk"] ++ replicate 3 "Eggs")
    ∧ li_texts (resolve t) = ["Milk"] ++ replicate 3 "Eggs"
    ∧ queue c' = []
    ∧ inputRef c' = inputRef one_entry.
Proof.
  apply (batched_submits 3 one_entry ["Milk"] (control (Some "Eggs")));
    reflexivity.
Defined.



(** X5: whatever the events since the first call of [App], no array is
    ever written after it was made: the heap holds, at cell [i], the array
    of the first [i] entries, for every [i] up to the number of entries,
    and [list] refers to the last one. *)
Theorem heap_keeps_history (es : list Event) :
  ∃ c L,
    run es init = JS.Ok c
    ∧ entries c = Some L
    ∧ listState c = length L
    ∧ length (heap c) = S (length L)
    ∧ (∀ i, (i ≤ length L)%nat → heap c !! i = Some (take i L))
    ∧ queue c = [].
Proof.
  destruct (run_history es init [] history_init eq_refl)
    as (c & L & Hrun & (He & Hs & Hlen & Hcells) & Hq).
  exists c, L. by repeat (split; [done|]).
Qed.

(** X6: for every sequence of events on a quiescent instance, the run
    ends without error, and the entries, like the rendered list, are the
    entries before followed by the text the control showed at each click
    made while a control was attached: clicks before the mount add
    nothing, of several texts typed between two clicks the last one
    counts. *)
Theorem run_follows_typed_log (es : list Event) (c : Instance)
    (L : list string) :
  entries c = Some L → queue c = [] →
  ∃ c' t,
    run es c = JS.Ok c'
    ∧ entries c' = Some (L ++ typed_log es (read_input (inputRef c)))
    ∧ App c' = JS.Ok (t, c')
    ∧ li_texts (resolve t) = L ++ typed_log es (read_input (inputRef c)).
Proof.
  intros HL Hq.
  destruct (run_typed_log es c L HL Hq) as (c' & Hrun & He & Hq').
  exists c', (view (L ++ typed_log es (read_input (inputRef c)))).
  split; [done|]. split; [done|].
  split; [by apply App_quiescent|apply li_texts_view].
Qed.

Lemma run_follows_typed_log_witness :
  ∃ c' t,
    run [Click; Input "x"; Mount; Click; Input "a"; Input "b"; Click; Render;
         Click] init
    = JS.Ok c'
    ∧ entries c' = Some ([] ++ [""; "b"; "b"])
    ∧ App c' = JS.Ok (t, c')
    ∧ li_texts (resolve t) = [] ++ [""; "b"; "b"].
Proof.
  apply (run_follows_typed_log
           [Click; Input "x"; Mount; Click; Input "a"; Input "b"; Click;
            Render; Click] init []); reflexivity.
Defined.

(** X7: the control is not cleared by a submit, so [n] clicks in a row
    with no typing in between append the same text [n] times. *)
Theorem repeated_clicks (n : nat) (c : Instance) (L : list string)
    (el : DOM.HTMLInputElement) :
  entries c = Some L → queue c = [] → current (inputRef c) = Some el →
  ∃ c',
    run (replicate n Click) c = JS.Ok c'
    ∧ entries c' = Some (L ++ replicate n (JS.nullish (DOM.value el) "")).
Proof.
  intros HL Hq Hel.
  destruct (run_typed_log (replicate n Click) c L HL Hq)
    as (c' & Hrun & He & _).
  exists c'. split; [done|]. rewrite He. do 2 f_equal.
  unfold read_input. rewrite Hel. clear.
  induction n as [|n IH]; [done|]. simpl. by rewrite IH.
Qed.

Lemma repeated_clicks_witness :
  ∃ c',
    run (replicate 3 Click) one_entry = JS.Ok c'
    ∧ entries c' = Some (["Milk"] ++ replicate 3 "Eggs").
Proof.
  apply (repeated_clicks 3 one_entry ["Milk"] (control (Some "Eggs")));
    reflexivity.
Defined.



(** X9: in a document with elements of id "root", the entry point mounts
    into the first of them; the committed tree is the heading, an empty
    list, the input and the button; the entries are empty, nothing is
    pending, and the attached control is blank. *)
Theorem main_with_root (doc : Document) (k : nat) :
  doc !! k = Some (Some "root") →
  (∀ j, (j < k)%nat → doc !! j ≠ Some (Some "root")) →
  ∃ c,
    main doc
    = Mounted k
        (Fragment
           [ Host "h1" [] [Text "To-Do List"];
             Host "ul" [] [];
             Host "input" [ref_attr inputRef_handle;
                           placeholder_attr "Enter a new item"] [];
             Host "button" [onClick_attr call_onSubmit] [Text "Submit"] ])
        c
    ∧ entries c = Some []
    ∧ queue c = []
    ∧ read_input (inputRef c) = Some "".
Proof.
  intros Hk Hfirst. unfold main, getElementById.
  assert (list_find (fun a => a = Some "root") doc = Some (k, Some "root"))
    as ->.
  { apply list_find_Some. split; [done|]. split; [done|].
    intros j y Hj Hlt ->. by apply (Hfirst j Hlt). }
  exists (attach init). by repeat split.
Qed.

Lemma main_with_root_witness :
  ∃ c,
    main [None; Some "app"; Some "root"; Some "root"]
    = Mounted 2
        (Fragment
           [ Host "h1" [] [Text "To-Do List"];
             Host "ul" [] [];
             Host "input" [ref_attr inputRef_handle;
                           placeholder_attr "Enter a new item"] [];
             Host "button" [onClick_attr call_onSubmit] [Text "Submit"] ])
        c
    ∧ entries c = Some []
    ∧ queue c = []
    ∧ read_input (inputRef c) = Some "".
Proof.
  apply (main_with_root [None; Some "app"; Some "root"; Some "root"] 2).
  - reflexivity.
  - intros j Hj. destruct j as [|[|j]]; [discriminate..|lia].
Defined.
